(** * BlogPostsWithPopup: a shallow embedding of [src/App.jsx]

    The component keeps four pieces of state ([posts], [error], [loading],
    [popupImage]), runs one loader ([fetchPosts]) from a mount-time effect,
    has one event handler ([handleButtonClick]) and a render body that
    selects a view from the state.

    - State cells created by [useState] are the fields of [ViewState]; a
      setter replaces its field.
    - The body of the [async] loader is written in a small state-and-exception
      monad [Eff], with [throw] and [try/catch/finally] as the source has
      them.  What the network answers is the loader's input ([FetchResult]).
    - [Math.random()] is the handler's input, a rational number.
    - The JSX returned by the component is a tree of [Node]s; [null] and
      [false] children are kept as [Null] (React renders nothing for them).
    - [useEffect(effect, [])] is modelled on a mounted [Instance] by the
      dependency comparison React performs at every commit. *)

From Stdlib Require Import List String ZArith QArith Bool Lia.
Import ListNotations.

Local Open Scope string_scope.
Local Open Scope list_scope.

(** ** Data model *)

(** A post as the render body consumes it: [post.id], [post.title],
    [post.body]. *)
Record Post : Type := mkPost {
  id : Z;
  title : string;
  body : string
}.

(** The two imported image assets. Both imports are non-empty URLs, hence
    truthy. *)
Inductive Asset : Type :=
| successImage   (* './assets/images/blog-posts.png' *)
| errorImage.    (* './assets/images/error-message.png' *)

(** The four [useState] cells. [None] is JavaScript's [null]. *)
Record ViewState : Type := mkViewState {
  posts : list Post;
  error : option string;
  loading : bool;
  popupImage : option Asset
}.

(** The initial values given to [useState]. *)
Definition initialState : ViewState :=
  {| posts := []; error := None; loading := true; popupImage := None |}.

(** JavaScript truthiness of the [error] cell: [null] and the empty string
    are falsy, any other string is truthy. *)
Definition truthy (e : option string) : bool :=
  match e with
  | None => false
  | Some m => negb (String.eqb m "")
  end.

(** ** Effects: state threading and exceptions *)

(** A thrown value; only its [message] is read by the source. *)
Record JsError : Type := mkError { message : string }.

(** A computation over the state cells that returns or throws. *)
Definition Eff (A : Type) : Type := ViewState -> (JsError + A) * ViewState.

Definition ret {A : Type} (a : A) : Eff A := fun s => (inr a, s).

Definition bind {A B : Type} (m : Eff A) (k : A -> Eff B) : Eff B :=
  fun s =>
    match m s with
    | (inl e, s1) => (inl e, s1)
    | (inr a, s1) => k a s1
    end.

Definition throw {A : Type} (e : JsError) : Eff A := fun s => (inl e, s).

(** [await p]: the promise [p] has settled; a rejection is thrown. *)
Definition await {A : Type} (p : JsError + A) : Eff A := fun s => (p, s).

(** [try { body } catch (err) { handler } finally { fin }]. *)
Definition try_catch_finally {A : Type}
    (body : Eff A) (handler : JsError -> Eff A) (fin : Eff unit) : Eff A :=
  fun s =>
    let '(r1, s1) := body s in
    let '(r2, s2) :=
      match r1 with
      | inl err => handler err s1
      | inr a => (inr a, s1)
      end in
    let '(r3, s3) := fin s2 in
    match r3 with
    | inl e => (inl e, s3)
    | inr _ => (r2, s3)
    end.

Declare Scope eff_scope.
Delimit Scope eff_scope with eff.
Notation "x <- m ;; k" := (bind m (fun x => k))
  (at level 61, m at next level, right associativity) : eff_scope.
Notation "m ;; k" := (bind m (fun _ => k))
  (at level 61, right associativity) : eff_scope.
Notation "'TRY' b 'CATCH' h 'FINALLY' f" := (try_catch_finally b h f)
  (at level 62, b at level 61, h at level 9, f at level 9) : eff_scope.

(** The [useState] setters. *)
Definition setPosts (data : list Post) : Eff unit :=
  fun s => (inr tt, {| posts := data; error := error s;
                       loading := loading s; popupImage := popupImage s |}).

Definition setError (e : option string) : Eff unit :=
  fun s => (inr tt, {| posts := posts s; error := e;
                       loading := loading s; popupImage := popupImage s |}).

Definition setLoading (b : bool) : Eff unit :=
  fun s => (inr tt, {| posts := posts s; error := error s;
                       loading := b; popupImage := popupImage s |}).

Definition setPopupImage (img : option Asset) : Eff unit :=
  fun s => (inr tt, {| posts := posts s; error := error s;
                       loading := loading s; popupImage := img |}).

(** ** The loader *)

(** What [fetch] resolves to: the [ok] flag and what [response.json()]
    settles to (a rejection on a body that does not parse, the parsed body
    otherwise).  The parsed body is taken to be an array of posts, which is
    what the endpoint returns and what [posts.map] needs. *)
Record Response : Type := mkResponse {
  ok : bool;
  json : JsError + list Post
}.

(** What [fetch(url)] settles to: a rejection (network or transport
    failure) or a response. *)
Definition FetchResult : Type := (JsError + Response)%type.

Definition endpoint : string := "https://jsonplaceholder.typicode.com/posts".

Definition failedToFetch : string :=
  "Failed to fetch posts. Please try again later.".

(** The body of [fetchPosts], run when the request has settled to [net]. *)
Definition fetchPosts (net : FetchResult) : Eff unit :=
  (TRY (response <- await net ;;
        (if negb (ok response)
         then throw (mkError failedToFetch)
         else ret tt) ;;
        data <- await (json response) ;;
        setPosts data)
   CATCH (fun err => setError (Some (message err)))
   FINALLY (setLoading false))%eff.

(** The state once the loader has settled. *)
Definition settle (net : FetchResult) (s : ViewState) : ViewState :=
  snd (fetchPosts net s).

(** The three failure kinds and success, as results of the request. *)
Definition networkFailure (err : JsError) : FetchResult := inl err.
Definition badStatus (js : JsError + list Post) : FetchResult :=
  inr (mkResponse false js).
Definition parseFailure (err : JsError) : FetchResult :=
  inr (mkResponse true (inl err)).
Definition fetched (data : list Post) : FetchResult :=
  inr (mkResponse true (inr data)).

(** The results on which the loader's [try] block throws: a rejected
    request, a response that is not [ok], a body that does not parse. *)
Definition isFailure (net : FetchResult) : bool :=
  match net with
  | inl _ => true
  | inr response =>
      negb (ok response)
      || match json response with
         | inl _ => true
         | inr _ => false
         end
  end.

(** ** The popup trigger *)

(** [Math.random() > 0.5] on the drawn number. *)
Definition isSuccess (random : Q) : bool := negb (Qle_bool random (1 # 2)).

Definition handleButtonClick (random : Q) : Eff unit :=
  (if isSuccess random
   then (setPopupImage (Some successImage) ;; setError None)
   else (setError None ;; setPopupImage (Some errorImage)))%eff.

(** The state after a click. *)
Definition click (random : Q) (s : ViewState) : ViewState :=
  snd (handleButtonClick random s).

(** ** The rendered tree *)

(** Event handlers that the JSX refers to. *)
Inductive Handler : Type :=
| onHandleButtonClick.

(** Values of JSX props. *)
Inductive PropVal : Type :=
| PStr (s : string)
| PNum (z : Z)
| PAsset (a : Asset)
| PHandler (h : Handler)
| PStyle (css : list (string * string)).

(** A React element tree. [Null] stands for a [null] or [false] child. *)
#[local] Set Warnings "-register-all".
Inductive Node : Type :=
| Null
| Text (s : string)
| Elem (tag : string) (props : list (string * PropVal)) (children : list Node).

(** [{error}] as a child: a string renders as text, [null] as nothing. *)
Definition textOf (e : option string) : Node :=
  match e with
  | Some m => Text m
  | None => Null
  end.

(** [<p>Loading posts...</p>] *)
Definition loadingView : Node :=
  Elem "p" [] [Text "Loading posts..."].

(** [<p className="error">{error}</p>] *)
Definition errorMessageView (e : option string) : Node :=
  Elem "p" [("className", PStr "error")] [textOf e].

(** [<button onClick={handleButtonClick}>Click Me</button>] *)
Definition buttonView : Node :=
  Elem "button" [("onClick", PHandler onHandleButtonClick)] [Text "Click Me"].

(** The first popup block: the image held by [popupImage], with the
    alternative text "Success" whichever asset it is. *)
Definition popupView (img : Asset) : Node :=
  Elem "div" [("className", PStr "popup")]
    [Elem "img" [("src", PAsset img); ("alt", PStr "Success");
                 ("style", PStyle [("maxWidth", "600px")])] []].

(** The second popup block: the error asset followed by the message. *)
Definition errorPopupView (e : option string) : Node :=
  Elem "div" [("className", PStr "popup")]
    [Elem "img" [("src", PAsset errorImage); ("alt", PStr "Error");
                 ("style", PStyle [("maxWidth", "600px")])] [];
     Elem "p" [] [textOf e]].

(** One element of [posts.map(...)]. *)
Definition postBlock (post : Post) : Node :=
  Elem "div" [("key", PNum (id post)); ("className", PStr "post")]
    [Elem "h2" [] [Text (title post)];
     Elem "p" [] [Text (body post)]].

(** The post list; the array produced by [posts.map] is spliced in after the
    heading, as React does with an array child. *)
Definition postListView (ps : list Post) : Node :=
  Elem "div" [] (Elem "h1" [] [Text "Blog Posts"] :: map postBlock ps).

(** The render body of [BlogPostsWithPopup], in the order of the source:
    the two early returns, then the [div] with the button and the three
    conditional children. *)
Definition render (s : ViewState) : Node :=
  if loading s then loadingView
  else if truthy (error s) then errorMessageView (error s)
  else
    Elem "div" []
      [ buttonView;
        (* popupImage && !error ? ... : null *)
        match popupImage s with
        | Some img => if negb (truthy (error s)) then popupView img else Null
        | None => Null
        end;
        (* error && !popupImage ? ... : null *)
        if truthy (error s)
        then match popupImage s with
             | None => errorPopupView (error s)
             | Some _ => Null
             end
        else Null;
        (* !error && !popupImage && (...) *)
        if negb (truthy (error s))
        then match popupImage s with
             | None => postListView (posts s)
             | Some _ => Null
             end
        else Null ].

(** ** Observations on a rendered tree *)

(** Every node of the tree, in document order (a node before its
    children). *)
Fixpoint descendants (n : Node) : list Node :=
  match n with
  | Elem _ _ children => n :: flat_map descendants children
  | _ => [n]
  end.

(** Number of elements with the given tag. *)
Fixpoint countTag (t : string) (n : Node) : nat :=
  match n with
  | Elem tag _ children =>
      (if String.eqb tag t then 1 else 0)
      + list_sum (map (countTag t) children)
  | _ => 0
  end.

(** The text nodes of the tree, in document order. *)
Fixpoint texts (n : Node) : list string :=
  match n with
  | Null => []
  | Text s => [s]
  | Elem _ _ children => flat_map texts children
  end.

Definition propIs (name : string) (v : string)
    (props : list (string * PropVal)) : bool :=
  existsb (fun p => match p with
                    | (k, PStr w) => String.eqb k name && String.eqb w v
                    | _ => false
                    end) props.

(** The elements carrying [className="post"], in document order. *)
Fixpoint postBlocks (n : Node) : list Node :=
  match n with
  | Elem _ props children =>
      (if propIs "className" "post" props then [n] else [])
      ++ flat_map postBlocks children
  | _ => []
  end.

(** The title and body shown by a post block: the text of its [h2] and of
    its [p]. *)
Definition shownPost (n : Node) : option (string * string) :=
  match n with
  | Elem _ _ [Elem "h2" _ [Text t]; Elem "p" _ [Text b]] => Some (t, b)
  | _ => None
  end.

Fixpoint assetOf (props : list (string * PropVal)) : list Asset :=
  match props with
  | [] => []
  | (k, PAsset a) :: rest =>
      if String.eqb k "src" then a :: assetOf rest else assetOf rest
  | _ :: rest => assetOf rest
  end.

(** The assets shown by the [img] elements of the tree, in document order. *)
Fixpoint images (n : Node) : list Asset :=
  match n with
  | Elem tag props children =>
      (if String.eqb tag "img" then assetOf props else [])
      ++ flat_map images children
  | _ => []
  end.

(** The text shown inside [p] elements, in document order. *)
Fixpoint paragraphs (n : Node) : list string :=
  match n with
  | Elem tag _ children =>
      if String.eqb tag "p" then flat_map texts children
      else flat_map paragraphs children
  | _ => []
  end.

(** ** Operations on the state of a mounted component *)

(** The two things that change the state: the loader settling and a
    click. *)
Inductive Op : Type :=
| Settle (net : FetchResult)
| Click (random : Q).

Definition apply (op : Op) (s : ViewState) : ViewState :=
  match op with
  | Settle net => settle net s
  | Click random => click random s
  end.

Definition run (ops : list Op) (s : ViewState) : ViewState :=
  fold_left (fun st op => apply op st) ops s.

(** ** The mounted instance and its mount-time effect *)

(** A mounted component: its state cells, the dependency array that
    [useEffect] recorded at the previous commit ([None] before the first
    one), the URLs passed to [fetch] so far (oldest first) and the number of
    requests still in flight. *)
Record Instance : Type := mkInstance {
  view : ViewState;
  lastDeps : option (list Z);
  requests : list string;
  pending : nat
}.

(** React's comparison of two dependency arrays, element by element. *)
Fixpoint areHookInputsEqual (next prev : list Z) : bool :=
  match next, prev with
  | n :: ns, p :: ps => Z.eqb n p && areHookInputsEqual ns ps
  | _, _ => true
  end.

(** The effect's body: [fetchPosts()] is called and reaches its
    [await fetch(...)]. *)
Definition effect (i : Instance) : Instance :=
  {| view := view i; lastDeps := lastDeps i;
     requests := requests i ++ [endpoint]; pending := S (pending i) |}.

(** [useEffect(effect, deps)] at a commit: the effect runs on the first
    commit and whenever [deps] differs from the recorded array. *)
Definition useEffect (deps : list Z) (i : Instance) : Instance :=
  let fire :=
    match lastDeps i with
    | None => true
    | Some prev => negb (areHookInputsEqual deps prev)
    end in
  let i' := if fire then effect i else i in
  {| view := view i'; lastDeps := Some deps;
     requests := requests i'; pending := pending i' |}.

(** One render of the component followed by its commit; the dependency
    array of the source is the empty one. *)
Definition renderPass (i : Instance) : Instance := useEffect [] i.

Definition withView (v : ViewState) (i : Instance) : Instance :=
  {| view := v; lastDeps := lastDeps i;
     requests := requests i; pending := pending i |}.

(** The instance after its first render. *)
Definition mount : Instance :=
  renderPass {| view := initialState; lastDeps := None;
                requests := []; pending := 0 |}.

(** What happens to a mounted instance: a re-render for any reason, a
    request in flight settling, a press on the button. *)
Inductive Event : Type :=
| Rerender
| Resolve (net : FetchResult)
| Press (random : Q).

(** A state change schedules a re-render. A request settles only while one
    is in flight; the button is pressed only while it is rendered. *)
Definition step (i : Instance) (ev : Event) : Instance :=
  match ev with
  | Rerender => renderPass i
  | Resolve net =>
      match pending i with
      | O => i
      | S k =>
          renderPass {| view := settle net (view i); lastDeps := lastDeps i;
                        requests := requests i; pending := k |}
      end
  | Press random =>
      if Nat.ltb 0 (countTag "button" (render (view i)))
      then renderPass (withView (click random (view i)) i)
      else i
  end.

Definition steps (evs : list Event) (i : Instance) : Instance :=
  fold_left step evs i.

Fixpoint altOf (props : list (string * PropVal)) : list string :=
  match props with
  | [] => []
  | (k, PStr v) :: rest =>
      if String.eqb k "alt" then v :: altOf rest else altOf rest
  | _ :: rest => altOf rest
  end.

(** The alternative texts of the [img] elements of the tree, in document
    order. *)
Fixpoint imageAlts (n : Node) : list string :=
  match n with
  | Elem tag props children =>
      (if String.eqb tag "img" then altOf props else [])
      ++ flat_map imageAlts children
  | _ => []
  end.

(** The events other than a settlement of the request. *)
Definition isResolve (ev : Event) : bool :=
  match ev with
  | Resolve _ => true
  | _ => false
  end.

(** What holds of a mounted instance between events.  The effect has been
    committed with the empty dependency array.  Either the request is still
    in flight and the state is the initial one; or the request has settled,
    [loading] is false, and [error] is [null] unless no popup image is set
    and [posts] is still empty. *)
Definition consistent (i : Instance) : Prop :=
  lastDeps i = Some [] /\
  ((view i = initialState /\ pending i = 1%nat) \/
   (loading (view i) = false /\ pending i = 0%nat /\
    (error (view i) = None \/
     (popupImage (view i) = None /\ posts (view i) = [])))).

(** * Properties *)

(** ** Equations of the loader and of the trigger *)

Section LoaderEquations.

Variable s : ViewState.

Lemma settle_networkFailure (err : JsError) :
  settle (networkFailure err) s =
  {| posts := posts s; error := Some (message err);
     loading := false; popupImage := popupImage s |}.
Proof. reflexivity. Qed.

Lemma settle_badStatus (js : JsError + list Post) :
  settle (badStatus js) s =
  {| posts := posts s; error := Some failedToFetch;
     loading := false; popupImage := popupImage s |}.
Proof. reflexivity. Qed.

Lemma settle_parseFailure (err : JsError) :
  settle (parseFailure err) s =
  {| posts := posts s; error := Some (message err);
     loading := false; popupImage := popupImage s |}.
Proof. reflexivity. Qed.

Lemma settle_fetched (data : list Post) :
  settle (fetched data) s =
  {| posts := data; error := error s;
     loading := false; popupImage := popupImage s |}.
Proof. reflexivity. Qed.

Lemma click_success (random : Q) :
  isSuccess random = true ->
  click random s =
  {| posts := posts s; error := None;
     loading := loading s; popupImage := Some successImage |}.
Proof.
  intros Hdraw. unfold click, handleButtonClick.
  rewrite Hdraw. reflexivity.
Qed.

Lemma click_failure (random : Q) :
  isSuccess random = false ->
  click random s =
  {| posts := posts s; error := None;
     loading := loading s; popupImage := Some errorImage |}.
Proof.
  intros Hdraw. unfold click, handleButtonClick.
  rewrite Hdraw. reflexivity.
Qed.

End LoaderEquations.

(** Every result of the request is one of the three failures or a
    success. *)
Lemma fetch_result_cases (net : FetchResult) :
  (exists err, net = networkFailure err) \/
  (exists js, net = badStatus js) \/
  (exists err, net = parseFailure err) \/
  (exists data, net = fetched data).
Proof.
  destruct net as [err | [[|] [err | data]]].
  - left. now exists err.
  - right. right. left. now exists err.
  - right. right. right. now exists data.
  - right. left. now exists (inl err).
  - right. left. now exists (inr data).
Qed.

Lemma click_popupImage (random : Q) (s : ViewState) :
  popupImage (click random s) =
  Some (if isSuccess random then successImage else errorImage).
Proof.
  destruct (isSuccess random) eqn:Hdraw.
  - now rewrite click_success.
  - now rewrite click_failure.
Qed.

Lemma click_error (random : Q) (s : ViewState) :
  error (click random s) = None.
Proof.
  destruct (isSuccess random) eqn:Hdraw.
  - now rewrite click_success.
  - now rewrite click_failure.
Qed.

Lemma click_loading (random : Q) (s : ViewState) :
  loading (click random s) = loading s.
Proof.
  destruct (isSuccess random) eqn:Hdraw.
  - now rewrite click_success.
  - now rewrite click_failure.
Qed.

Lemma settle_popupImage (net : FetchResult) (s : ViewState) :
  popupImage (settle net s) = popupImage s.
Proof.
  destruct (fetch_result_cases net) as [[e ->] | [[js ->] | [[e ->] | [d ->]]]];
    reflexivity.
Qed.

Lemma settle_loading (net : FetchResult) (s : ViewState) :
  loading (settle net s) = false.
Proof.
  destruct (fetch_result_cases net) as [[e ->] | [[js ->] | [[e ->] | [d ->]]]];
    reflexivity.
Qed.

(** ** Equations of the render body *)

Lemma render_loading (s : ViewState) :
  loading s = true -> render s = loadingView.
Proof. intros H. unfold render. now rewrite H. Qed.

Lemma render_error (s : ViewState) :
  loading s = false -> truthy (error s) = true ->
  render s = errorMessageView (error s).
Proof. intros Hl He. unfold render. now rewrite Hl, He. Qed.

Lemma render_popup (s : ViewState) (img : Asset) :
  loading s = false -> truthy (error s) = false -> popupImage s = Some img ->
  render s = Elem "div" [] [buttonView; popupView img; Null; Null].
Proof. intros Hl He Hp. unfold render. now rewrite Hl, He, Hp. Qed.

Lemma render_posts (s : ViewState) :
  loading s = false -> truthy (error s) = false -> popupImage s = None ->
  render s = Elem "div" [] [buttonView; Null; Null; postListView (posts s)].
Proof. intros Hl He Hp. unfold render. now rewrite Hl, He, Hp. Qed.

(** The render body has exactly these four outcomes. *)
Lemma render_cases (s : ViewState) :
  render s = loadingView \/
  render s = errorMessageView (error s) \/
  (exists img, popupImage s = Some img /\
     render s = Elem "div" [] [buttonView; popupView img; Null; Null]) \/
  (popupImage s = None /\
     render s = Elem "div" [] [buttonView; Null; Null; postListView (posts s)]).
Proof.
  destruct (loading s) eqn:Hl; [left; now apply render_loading |].
  destruct (truthy (error s)) eqn:He; [right; left; now apply render_error |].
  destruct (popupImage s) as [img |] eqn:Hp.
  - right. right. left. exists img. split; [reflexivity |].
    now apply render_popup.
  - right. right. right. split; [reflexivity |]. now apply render_posts.
Qed.

(** ** Post blocks *)

Lemma postBlocks_postBlock (ps : list Post) :
  flat_map postBlocks (map postBlock ps) = map postBlock ps.
Proof.
  induction ps as [| p ps IH]; [reflexivity |].
  cbn [map flat_map]. rewrite IH. reflexivity.
Qed.

Lemma postBlocks_postListView (ps : list Post) :
  postBlocks (postListView ps) = map postBlock ps.
Proof.
  unfold postListView. cbn [postBlocks flat_map propIs existsb app].
  apply postBlocks_postBlock.
Qed.

Lemma shownPost_postBlock (ps : list Post) :
  map shownPost (map postBlock ps) =
  map (fun p => Some (title p, body p)) ps.
Proof.
  rewrite map_map. apply map_ext. intros p. reflexivity.
Qed.

(** No node below a post block is the popup of either kind or a post
    list. *)
Lemma descendants_postBlocks (n : Node) (ps : list Post) :
  In n (flat_map descendants (map postBlock ps)) ->
  exists p, n = postBlock p \/ n = Elem "h2" [] [Text (title p)] \/
            n = Text (title p) \/ n = Elem "p" [] [Text (body p)] \/
            n = Text (body p).
Proof.
  induction ps as [| p ps IH]; cbn [map flat_map]; [intros [] |].
  intros Hin. apply in_app_or in Hin. destruct Hin as [Hin | Hin].
  - exists p. cbn in Hin.
    destruct Hin as [<- | [<- | [<- | [<- | [<- | []]]]]]; auto.
  - now apply IH.
Qed.

(** ** The view selector *)

(** Membership in an explicit list of nodes, none of which has the shape
    looked for. *)
Ltac absurd_member H :=
  repeat match type of H with
         | In _ (_ ++ _) => apply in_app_or in H
         | _ \/ _ => destruct H as [H | H]
         | In _ (_ :: _) => destruct H as [H | H]
         | In _ [] => destruct H
         | _ = _ => discriminate H
         | False => destruct H
         end.

Lemma errorPopupView_not_below_posts (e : option string) (ps : list Post) :
  ~ In (errorPopupView e) (flat_map descendants (map postBlock ps)).
Proof.
  intros Hin. apply descendants_postBlocks in Hin.
  destruct Hin as [p Hp]. absurd_member Hp.
Qed.

Lemma postListView_not_below_posts (qs ps : list Post) :
  ~ In (postListView qs) (flat_map descendants (map postBlock ps)).
Proof.
  intros Hin. apply descendants_postBlocks in Hin.
  destruct Hin as [p Hp]. absurd_member Hp.
Qed.

Lemma errorPopupView_unreachable (s : ViewState) (e : option string) :
  ~ In (errorPopupView e) (descendants (render s)).
Proof.
  intros Hin.
  destruct (render_cases s) as [Hr | [Hr | [[img [_ Hr]] | [_ Hr]]]];
    rewrite Hr in Hin; clear Hr.
  - cbn in Hin. absurd_member Hin.
  - destruct (error s); cbn in Hin; absurd_member Hin.
  - cbn in Hin. absurd_member Hin.
  - cbn [descendants flat_map buttonView postListView app] in Hin.
    absurd_member Hin.
    now apply errorPopupView_not_below_posts in Hin.
Qed.

(** C1. The claim: in a state left by a failed fetch (error set, no popup
    image, not loading, no click yet) the error popup view, the error image
    followed by the message paragraph, is rendered.  On the code the early
    return on [error] answers first: after a response that is not [ok] the
    render body returns the error paragraph alone, with no image, and no
    state at all makes the render body produce the error popup view. *)
Theorem fetch_failure_shows_no_error_popup :
  let s := settle (badStatus (inr [])) initialState in
  (error s = Some failedToFetch /\ popupImage s = None /\ loading s = false) /\
  render s = errorMessageView (Some failedToFetch) /\
  images (render s) = [] /\
  forall (s' : ViewState) (e : option string),
    ~ In (errorPopupView e) (descendants (render s')).
Proof.
  cbv zeta. split; [repeat split | split; [reflexivity | split]].
  - reflexivity.
  - intros s' e. apply errorPopupView_unreachable.
Qed.

(** ** The loader *)

(** C2, as amended. The message stored in [error] is the message of
    whatever was thrown in the [try] block: the fixed text for a response
    that is not [ok], and the thrown error's own message for a rejected
    request or a body that does not parse. *)
Theorem loader_stores_thrown_message (s : ViewState) :
  (forall err, error (settle (networkFailure err) s) = Some (message err)) /\
  (forall js, error (settle (badStatus js) s) = Some failedToFetch) /\
  (forall err, error (settle (parseFailure err) s) = Some (message err)).
Proof. repeat split. Qed.

(** C2, counterexample. A rejected request whose error reads "Failed to
    fetch" and a response that is not [ok] leave different messages in
    [error]; so no single string is stored by every failure. *)
Lemma failure_messages_differ :
  let rejected := networkFailure (mkError "Failed to fetch") in
  let status500 := badStatus (inr []) in
  isFailure rejected = true /\ isFailure status500 = true /\
  error (settle rejected initialState) = Some "Failed to fetch" /\
  error (settle status500 initialState) =
    Some "Failed to fetch posts. Please try again later." /\
  ~ (exists generic : string, forall net : FetchResult,
       isFailure net = true ->
       error (settle net initialState) = Some generic).
Proof.
  cbv zeta. repeat split.
  intros [generic Hall].
  pose proof (Hall (networkFailure (mkError "Failed to fetch")) eq_refl) as H1.
  pose proof (Hall (badStatus (inr [])) eq_refl) as H2.
  cbv in H1, H2. rewrite <- H2 in H1. discriminate H1.
Qed.

(** C6. Whatever the request settles to (posts, a response that is not
    [ok], a rejection of the request or of the parse), the loader leaves
    [loading] false. *)
Theorem loader_clears_loading (net : FetchResult) (s : ViewState) :
  loading (settle net s) = false.
Proof. apply settle_loading. Qed.

(** C10. On a failure the loader leaves [posts] as it was, and on a
    success it leaves [error] as it was; from the initial state these are
    the empty list and [null]. *)
Theorem loader_touches_only_its_branch (net : FetchResult) :
  (forall s : ViewState,
     if isFailure net
     then posts (settle net s) = posts s
     else error (settle net s) = error s) /\
  (if isFailure net
   then posts (settle net initialState) = []
   else error (settle net initialState) = None).
Proof.
  destruct (fetch_result_cases net) as [[e ->] | [[js ->] | [[e ->] | [d ->]]]];
    split; try intros s; reflexivity.
Qed.

(** C4. When the request succeeds with [data] and neither an error nor a
    popup image is set, the rendered tree has one post block per post of
    [data], in the order of [data], and each block shows the title and the
    body of its post. *)
Theorem fetched_posts_rendered_in_order (data : list Post) (s0 : ViewState) :
  error s0 = None -> popupImage s0 = None ->
  let s := settle (fetched data) s0 in
  (error s = None /\ popupImage s = None) /\
  postBlocks (render s) = map postBlock data /\
  List.length (postBlocks (render s)) = List.length data /\
  map shownPost (postBlocks (render s)) =
    map (fun p => Some (title p, body p)) data.
Proof.
  intros He Hp s.
  assert (Hr : render s =
               Elem "div" [] [buttonView; Null; Null; postListView data]).
  { subst s. rewrite settle_fetched. apply render_posts; cbn; trivial.
    now rewrite He. }
  assert (Hb : postBlocks (render s) = map postBlock data).
  { rewrite Hr.
    cbn [postBlocks flat_map propIs existsb app buttonView].
    cbn [postBlocks flat_map propIs existsb app].
    fold (postListView data). rewrite postBlocks_postListView.
    cbn [orb app]. apply app_nil_r. }
  split; [subst s; rewrite settle_fetched; cbn; auto |].
  rewrite Hb. split; [reflexivity |]. split.
  - now rewrite length_map.
  - apply shownPost_postBlock.
Qed.

Lemma fetched_posts_rendered_in_order_witness :
  let data := [mkPost 1 "first" "one"; mkPost 2 "second" "two"] in
  postBlocks (render (settle (fetched data) initialState)) = map postBlock data.
Proof.
  intros data.
  exact (proj1 (proj2
    (fetched_posts_rendered_in_order data initialState eq_refl eq_refl))).
Defined.

(** ** The popup trigger *)

(** C5. After a click whose draw is above 0.5 the state holds the success
    asset and no error; once the loader has settled, the rendered tree is
    the button and the popup with the success asset: one image, the success
    one, and no paragraph. *)
Theorem success_draw_shows_success_asset (s : ViewState) (random : Q) :
  isSuccess random = true ->
  let s' := click random s in
  popupImage s' = Some successImage /\ error s' = None /\
  (loading s = false ->
   render s' = Elem "div" [] [buttonView; popupView successImage; Null; Null]
   /\ images (render s') = [successImage]
   /\ paragraphs (render s') = []).
Proof.
  intros Hdraw s'. subst s'. rewrite (click_success s random Hdraw).
  split; [reflexivity | split; [reflexivity |]].
  intros Hl.
  rewrite (render_popup _ successImage); cbn; auto.
Qed.

Lemma success_draw_witness :
  let s' := click (3 # 4) (settle (badStatus (inr [])) initialState) in
  popupImage s' = Some successImage /\ error s' = None /\
  render s' = Elem "div" [] [buttonView; popupView successImage; Null; Null].
Proof.
  intros s'.
  destruct (success_draw_shows_success_asset
              (settle (badStatus (inr [])) initialState) (3 # 4) eq_refl)
    as (Hp & He & Hr).
  destruct (Hr eq_refl) as (Hv & _).
  repeat split; assumption.
Defined.

(** C3. After a click whose draw is at most 0.5 the state holds the error
    asset and no error; once the loader has settled, the rendered tree is
    the button and the popup with the error asset: one image, the error
    one, and no paragraph, so no message is shown, the one of an earlier
    fetch failure included. *)
Theorem failure_draw_shows_error_asset (s : ViewState) (random : Q) :
  isSuccess random = false ->
  let s' := click random s in
  popupImage s' = Some errorImage /\ error s' = None /\
  (loading s = false ->
   render s' = Elem "div" [] [buttonView; popupView errorImage; Null; Null]
   /\ images (render s') = [errorImage]
   /\ paragraphs (render s') = []
   /\ texts (render s') = ["Click Me"]).
Proof.
  intros Hdraw s'. subst s'. rewrite (click_failure s random Hdraw).
  split; [reflexivity | split; [reflexivity |]].
  intros Hl.
  rewrite (render_popup _ errorImage); cbn; auto.
Qed.

Lemma failure_draw_witness :
  let s' := click (1 # 4) (settle (badStatus (inr [])) initialState) in
  popupImage s' = Some errorImage /\ error s' = None /\
  render s' = Elem "div" [] [buttonView; popupView errorImage; Null; Null] /\
  paragraphs (render s') = [].
Proof.
  intros s'.
  destruct (failure_draw_shows_error_asset
              (settle (badStatus (inr [])) initialState) (1 # 4) eq_refl)
    as (Hp & He & Hr).
  destruct (Hr eq_refl) as (Hv & _ & Hpar & _).
  repeat split; assumption.
Defined.

(** ** Sequences of operations *)

Lemma apply_keeps_popupImage (op : Op) (s : ViewState) :
  popupImage s <> None -> popupImage (apply op s) <> None.
Proof.
  intros Hp. destruct op as [net | random]; cbn [apply].
  - now rewrite settle_popupImage.
  - rewrite click_popupImage. discriminate.
Qed.

Lemma run_keeps_popupImage (ops : list Op) (s : ViewState) :
  popupImage s <> None -> popupImage (run ops s) <> None.
Proof.
  revert s. induction ops as [| op ops IH]; intros s Hp; [exact Hp |].
  cbn [run fold_left]. apply IH. now apply apply_keeps_popupImage.
Qed.

Lemma run_app (ops1 ops2 : list Op) (s : ViewState) :
  run (ops1 ++ ops2) s = run ops2 (run ops1 s).
Proof. unfold run. apply fold_left_app. Qed.

(** With a popup image set, no node of the rendered tree is the post
    list. *)
Lemma postListView_hidden_by_popup (s : ViewState) (ps : list Post) :
  popupImage s <> None -> ~ In (postListView ps) (descendants (render s)).
Proof.
  intros Hp Hin.
  destruct (render_cases s) as [Hr | [Hr | [[img [_ Hr]] | [Hnone _]]]];
    [rewrite Hr in Hin; clear Hr .. | contradiction].
  - cbn in Hin. absurd_member Hin.
  - destruct (error s); cbn in Hin; absurd_member Hin.
  - cbn in Hin. absurd_member Hin.
Qed.

(** C8. No operation sets a popup image back to [null]; hence after any
    operations that include a click, whatever comes before and after it,
    the popup image is set and the post list is not part of the rendered
    tree. *)
Theorem popup_image_never_reset :
  (forall (op : Op) (s : ViewState),
     popupImage s <> None -> popupImage (apply op s) <> None) /\
  (forall (before after : list Op) (random : Q) (s : ViewState),
     let s' := run (before ++ Click random :: after) s in
     popupImage s' <> None /\
     forall ps : list Post,
       ~ In (postListView ps) (descendants (render s'))).
Proof.
  split; [exact apply_keeps_popupImage |].
  intros before after random s s'.
  assert (Hp : popupImage s' <> None).
  { subst s'. rewrite run_app. cbn [run fold_left apply].
    apply run_keeps_popupImage. rewrite click_popupImage. discriminate. }
  split; [exact Hp |].
  intros ps. now apply postListView_hidden_by_popup.
Qed.

Lemma popup_image_never_reset_witness :
  let s := click (3 # 4) (settle (fetched []) initialState) in
  popupImage s <> None /\
  popupImage (apply (Settle (fetched [mkPost 1 "t" "b"])) s) <> None.
Proof.
  intros s.
  assert (Hs : popupImage s <> None) by (vm_compute; discriminate).
  split; [exact Hs |].
  exact (proj1 popup_image_never_reset
           (Settle (fetched [mkPost 1 "t" "b"])) s Hs).
Defined.

(** ** The error paragraph *)

(** C9, as amended. When the loader has settled and [error] is a non-empty
    string, the rendered tree is the error paragraph and nothing else; it
    has no button, and a press on the button cannot happen on an instance
    in that state. *)
Theorem error_paragraph_alone (s : ViewState) (m : string) :
  loading s = false -> error s = Some m -> m <> "" ->
  render s = Elem "p" [("className", PStr "error")] [Text m] /\
  countTag "button" (render s) = 0%nat /\
  forall (i : Instance) (random : Q),
    view i = s -> step i (Press random) = i.
Proof.
  intros Hl He Hm.
  assert (Ht : truthy (error s) = true).
  { rewrite He. cbn. apply negb_true_iff. now apply String.eqb_neq. }
  assert (Hr : render s = Elem "p" [("className", PStr "error")] [Text m]).
  { rewrite (render_error s Hl Ht), He. reflexivity. }
  split; [exact Hr |].
  assert (Hc : countTag "button" (render s) = 0%nat)
    by (rewrite Hr; reflexivity).
  split; [exact Hc |].
  intros i random Hv. cbn [step]. rewrite Hv, Hc. reflexivity.
Qed.

Lemma error_paragraph_alone_witness :
  let s := settle (badStatus (inr [])) initialState in
  render s = Elem "p" [("className", PStr "error")] [Text failedToFetch] /\
  countTag "button" (render s) = 0%nat.
Proof.
  intros s.
  assert (Hm : failedToFetch <> "") by discriminate.
  destruct (error_paragraph_alone s failedToFetch eq_refl eq_refl Hm)
    as (Hr & Hc & _).
  split; assumption.
Defined.

(** C9, counterexample. A request rejected with an error whose message is
    the empty string leaves [loading] false and [error] a string, not
    [null]; the early return on [error] does not fire on it, and the
    rendered tree is the [div] with the button and the empty post list. *)
Lemma empty_message_keeps_button :
  let s := settle (networkFailure (mkError "")) initialState in
  loading s = false /\ error s = Some "" /\ error s <> None /\
  render s = Elem "div" [] [buttonView; Null; Null; postListView []] /\
  countTag "button" (render s) = 1%nat /\
  render s <> errorMessageView (error s).
Proof.
  cbv zeta. repeat split; try discriminate.
Qed.

(** ** The mount-time effect *)

Lemma renderPass_after_commit (i : Instance) :
  lastDeps i = Some [] ->
  renderPass i = i.
Proof.
  intros Hd. unfold renderPass, useEffect. rewrite Hd. cbn.
  destruct i as [v d r p]. cbn in Hd |- *. now rewrite Hd.
Qed.

Lemma mount_committed :
  lastDeps mount = Some [] /\ requests mount = [endpoint] /\
  pending mount = 1%nat /\ view mount = initialState.
Proof. repeat split. Qed.

(** After the first commit, no event changes the recorded dependency array
    or the list of requests. *)
Lemma step_keeps_requests (i : Instance) (ev : Event) :
  lastDeps i = Some [] ->
  lastDeps (step i ev) = Some [] /\ requests (step i ev) = requests i.
Proof.
  intros Hd. destruct ev as [| net | random]; cbn [step].
  - now rewrite renderPass_after_commit.
  - destruct (pending i) as [| k]; [now split |].
    now rewrite renderPass_after_commit.
  - destruct (Nat.ltb 0 (countTag "button" (render (view i)))); [| now split].
    now rewrite renderPass_after_commit.
Qed.

Lemma steps_keep_requests (evs : list Event) (i : Instance) :
  lastDeps i = Some [] ->
  lastDeps (steps evs i) = Some [] /\ requests (steps evs i) = requests i.
Proof.
  revert i. induction evs as [| ev evs IH]; intros i Hd; [now split |].
  cbn [steps fold_left].
  destruct (step_keeps_requests i ev Hd) as [Hd' Hr'].
  destruct (IH (step i ev) Hd') as [Hd'' Hr''].
  split; [exact Hd'' |]. unfold steps in Hr''. now rewrite Hr'', Hr'.
Qed.

(** C7. Mounting the component passes the endpoint to [fetch] once, and
    after any sequence of re-renders, settlements and clicks on the mounted
    instance that single request is still the only one issued. *)
Theorem one_fetch_per_mount (evs : list Event) :
  requests mount = [endpoint] /\
  requests (steps evs mount) = [endpoint] /\
  requests (steps (evs ++ [Rerender]) mount) = [endpoint].
Proof.
  destruct mount_committed as (Hd & Hr & _).
  split; [exact Hr |]. split.
  - destruct (steps_keep_requests evs mount Hd) as [_ H]. now rewrite H.
  - destruct (steps_keep_requests (evs ++ [Rerender]) mount Hd) as [_ H].
    now rewrite H.
Qed.

(** * Further properties of the component *)

(** ** The loader and the trigger as state transformers *)

Lemma click_posts (random : Q) (s : ViewState) :
  posts (click random s) = posts s.
Proof.
  destruct (isSuccess random) eqn:Hdraw.
  - now rewrite click_success.
  - now rewrite click_failure.
Qed.

(** X1. The loader never throws: whatever the request settles to, the
    [catch] block absorbs the error and the [finally] block completes, so
    the promise of [fetchPosts()] is fulfilled and the unguarded call in the
    effect leaves no rejection behind. *)
Theorem loader_never_throws (net : FetchResult) (s : ViewState) :
  fst (fetchPosts net s) = inr tt.
Proof.
  destruct (fetch_result_cases net) as [[e ->] | [[js ->] | [[e ->] | [d ->]]]];
    reflexivity.
Qed.

Lemma apply_keeps_loading_false (op : Op) (s : ViewState) :
  loading s = false -> loading (apply op s) = false.
Proof.
  intros Hl. destruct op as [net | random]; cbn [apply].
  - apply settle_loading.
  - now rewrite click_loading.
Qed.

(** X2. Once [loading] is false no sequence of settlements and clicks sets
    it back to true, and the loading message is not rendered again. *)
Theorem loading_never_returns (ops : list Op) (s : ViewState) :
  loading s = false ->
  loading (run ops s) = false /\ render (run ops s) <> loadingView.
Proof.
  intros Hl.
  assert (H : loading (run ops s) = false).
  { revert s Hl. induction ops as [| op ops IH]; intros s Hl; [exact Hl |].
    cbn [run fold_left]. apply IH. now apply apply_keeps_loading_false. }
  split; [exact H |].
  unfold render. rewrite H.
  destruct (truthy (error (run ops s))); discriminate.
Qed.

Lemma loading_never_returns_witness :
  let s := settle (fetched []) initialState in
  let ops := [Click (3 # 4); Settle (badStatus (inr [])); Click (1 # 4)] in
  loading (run ops s) = false /\ render (run ops s) <> loadingView.
Proof.
  intros s ops. exact (loading_never_returns ops s eq_refl).
Defined.

Lemma click_click (r1 r2 : Q) (s : ViewState) :
  click r2 (click r1 s) = click r2 s.
Proof.
  destruct (isSuccess r2) eqn:H2;
    [rewrite !(click_success _ r2 H2) | rewrite !(click_failure _ r2 H2)];
    now rewrite click_posts, click_loading.
Qed.

(** X3. The last click wins: after any number of clicks the state is the
    one the last click alone would have produced; earlier draws leave no
    trace. *)
Theorem last_click_wins (draws : list Q) (random : Q) (s : ViewState) :
  run (map Click draws ++ [Click random]) s = click random s.
Proof.
  revert s. induction draws as [| r draws IH]; intros s; [reflexivity |].
  cbn [map app run fold_left apply].
  change (run (map Click draws ++ [Click random]) (click r s)
          = click random s).
  rewrite IH. apply click_click.
Qed.

(** X4. A successful settlement and a click commute.  A failed settlement
    and a click do not: the later write to [error] wins, so a click after
    the failure erases the message while a failure after the click leaves
    it set. *)
Theorem settle_click_order (net : FetchResult) (random : Q) (s : ViewState) :
  if isFailure net
  then error (click random (settle net s)) = None /\
       error (settle net (click random s)) = error (settle net s) /\
       error (settle net s) <> None
  else settle net (click random s) = click random (settle net s).
Proof.
  destruct (fetch_result_cases net) as [[e ->] | [[js ->] | [[e ->] | [d ->]]]];
    cbn [isFailure networkFailure badStatus parseFailure fetched
         ok json negb orb].
  1-3: split; [apply click_error | split; [reflexivity | discriminate]].
  destruct (isSuccess random) eqn:Hdraw.
  - now rewrite !(click_success _ random Hdraw).
  - now rewrite !(click_failure _ random Hdraw).
Qed.

(** ** What the rendered tree contains *)

Lemma countTag_postBlocks (ps : list Post) :
  list_sum (map (countTag "button") (map postBlock ps)) = 0%nat.
Proof. induction ps as [| p ps IH]; [reflexivity |]. cbn. exact IH. Qed.

Lemma images_postBlocks (ps : list Post) :
  flat_map images (map postBlock ps) = [].
Proof. induction ps as [| p ps IH]; [reflexivity |]. cbn. exact IH. Qed.

Lemma imageAlts_postBlocks (ps : list Post) :
  flat_map imageAlts (map postBlock ps) = [].
Proof. induction ps as [| p ps IH]; [reflexivity |]. cbn. exact IH. Qed.

Lemma render_button_count (s : ViewState) :
  countTag "button" (render s) =
  if loading s || truthy (error s) then 0%nat else 1%nat.
Proof.
  unfold render.
  destruct (loading s); [reflexivity |].
  destruct (truthy (error s)) eqn:He; cbn [orb].
  - destruct (error s); reflexivity.
  - destruct (popupImage s) as [img |]; [reflexivity |].
    cbn [countTag map list_sum fold_right buttonView postListView negb
         String.eqb Ascii.eqb Bool.eqb].
    rewrite countTag_postBlocks. reflexivity.
Qed.

(** X5. The button is part of the rendered tree exactly when the loader has
    settled and [error] is falsy ([null] or the empty string); it is then
    rendered once. *)
Theorem button_rendered_iff (s : ViewState) :
  countTag "button" (render s) =
  if loading s || truthy (error s) then 0%nat else 1%nat.
Proof. apply render_button_count. Qed.

(** X6. At most one image is rendered: the asset held by [popupImage], and
    only when the loader has settled and [error] is falsy.  Whichever asset
    it is, the error one included, its alternative text is "Success"; the
    text "Error" is never rendered. *)
Theorem image_rendered_iff (s : ViewState) :
  images (render s) =
    (if loading s || truthy (error s) then []
     else match popupImage s with
          | Some img => [img]
          | None => []
          end) /\
  imageAlts (render s) = map (fun _ => "Success") (images (render s)).
Proof.
  unfold render.
  destruct (loading s); [split; reflexivity |].
  destruct (truthy (error s)) eqn:He; cbn [orb].
  - destruct (error s); split; reflexivity.
  - destruct (popupImage s) as [img |]; [split; reflexivity |].
    cbn [images imageAlts flat_map buttonView postListView negb app
         String.eqb Ascii.eqb Bool.eqb assetOf altOf].
    rewrite images_postBlocks, imageAlts_postBlocks. split; reflexivity.
Qed.

(** X7. Post blocks are rendered only in the post list: when the loader
    has settled, [error] is falsy and no popup image is set, they are the
    blocks of [posts] in order; in every other state there is none. *)
Theorem post_blocks_rendered_iff (s : ViewState) :
  postBlocks (render s) =
  if loading s || truthy (error s) then []
  else match popupImage s with
       | Some _ => []
       | None => map postBlock (posts s)
       end.
Proof.
  unfold render.
  destruct (loading s); [reflexivity |].
  destruct (truthy (error s)) eqn:He; cbn [orb].
  - destruct (error s); reflexivity.
  - destruct (popupImage s) as [img |]; [reflexivity |].
    cbn [postBlocks flat_map propIs existsb app buttonView negb orb].
    fold (postListView (posts s)). rewrite postBlocks_postListView.
    cbn [orb app]. apply app_nil_r.
Qed.

(** ** The mounted instance *)

Lemma step_consistent (i : Instance) (ev : Event) :
  consistent i -> consistent (step i ev).
Proof.
  intros [Hd Hcases]. destruct ev as [| net | random]; cbn [step].
  - rewrite renderPass_after_commit by exact Hd. now split.
  - destruct Hcases as [[Hv Hp] | (Hl & Hp & He)]; rewrite Hp.
    + rewrite renderPass_after_commit by exact Hd.
      split; [exact Hd |]. right. cbn [view pending]. rewrite Hv.
      split; [apply settle_loading | split; [reflexivity |]].
      destruct (fetch_result_cases net)
        as [[e ->] | [[js ->] | [[e ->] | [d ->]]]];
        [right | right | right | left]; repeat split.
    + split; [exact Hd | right; auto].
  - destruct Hcases as [[Hv Hp] | (Hl & Hp & He)].
    + rewrite Hv. cbn. split; [exact Hd | left; auto].
    + destruct (Nat.ltb 0 (countTag "button" (render (view i)))).
      * rewrite renderPass_after_commit by exact Hd.
        split; [exact Hd |]. right. cbn [withView view pending].
        rewrite click_loading, click_error. auto.
      * split; [exact Hd | right; auto].
Qed.

Lemma steps_consistent (evs : list Event) (i : Instance) :
  consistent i -> consistent (steps evs i).
Proof.
  revert i. induction evs as [| ev evs IH]; intros i Hi; [exact Hi |].
  cbn [steps fold_left]. apply IH. now apply step_consistent.
Qed.

(** X8. Every instance reached from the mount by re-renders, settlements
    and presses on the rendered button is consistent: [loading] is true
    exactly while the one request is in flight, and then the state is still
    the initial one; afterwards [error] and [popupImage] are never both set,
    and [error] is set only while [posts] is empty. *)
Theorem reachable_consistent (evs : list Event) :
  consistent (steps evs mount).
Proof.
  apply steps_consistent. split; [reflexivity |]. left. now split.
Qed.

Lemma step_stuck_on_error (i : Instance) (ev : Event) :
  lastDeps i = Some [] -> pending i = 0%nat ->
  loading (view i) = false -> truthy (error (view i)) = true ->
  step i ev = i.
Proof.
  intros Hd Hp Hl He. destruct ev as [| net | random]; cbn [step].
  - now apply renderPass_after_commit.
  - now rewrite Hp.
  - rewrite render_button_count, Hl, He. reflexivity.
Qed.

(** X9. A failed fetch that leaves a non-empty message is final for the
    mounted instance: no later re-render, settlement or press changes
    anything, so the error paragraph stays and there is no way to retry or
    to open a popup. *)
Theorem failed_fetch_is_final (net : FetchResult) (evs : list Event) :
  truthy (error (settle net initialState)) = true ->
  steps evs (step mount (Resolve net)) = step mount (Resolve net) /\
  render (view (steps evs (step mount (Resolve net)))) =
    errorMessageView (error (settle net initialState)).
Proof.
  intros He.
  assert (H0 : step mount (Resolve net) =
               {| view := settle net initialState; lastDeps := Some [];
                  requests := [endpoint]; pending := 0 |}) by reflexivity.
  assert (Hfix : steps evs (step mount (Resolve net))
                 = step mount (Resolve net)).
  { rewrite H0. induction evs as [| ev evs IH]; [reflexivity |].
    cbn [steps fold_left]. rewrite step_stuck_on_error; cbn [view pending lastDeps];
      auto using settle_loading. }
  split; [exact Hfix |].
  rewrite Hfix, H0. cbn [view].
  apply render_error; [apply settle_loading | exact He].
Qed.

Lemma failed_fetch_is_final_witness :
  let evs := [Press (3 # 4); Rerender; Resolve (fetched [mkPost 1 "t" "b"])] in
  steps evs (step mount (Resolve (badStatus (inr [])))) =
  step mount (Resolve (badStatus (inr []))).
Proof.
  intros evs.
  exact (proj1 (failed_fetch_is_final (badStatus (inr [])) evs eq_refl)).
Defined.

Lemma step_mount_unsettled (ev : Event) :
  isResolve ev = false -> step mount ev = mount.
Proof.
  destruct ev as [| net | random]; intros H; [| discriminate H |];
    reflexivity.
Qed.

(** X10. Until the request settles nothing changes: re-renders do not
    re-run the effect and the button is not there to be pressed, so the
    instance stays as mounted and the loading message stays rendered. *)
Theorem unsettled_instance_unchanged (evs : list Event) :
  forallb (fun ev => negb (isResolve ev)) evs = true ->
  steps evs mount = mount /\ render (view (steps evs mount)) = loadingView.
Proof.
  intros Hall.
  assert (H : steps evs mount = mount).
  { induction evs as [| ev evs IH]; [reflexivity |].
    cbn [forallb] in Hall. apply andb_true_iff in Hall.
    destruct Hall as [Hev Hrest]. apply negb_true_iff in Hev.
    cbn [steps fold_left]. rewrite (step_mount_unsettled ev Hev).
    now apply IH. }
  split; [exact H |]. now rewrite H.
Qed.

Lemma unsettled_instance_unchanged_witness :
  steps [Rerender; Press (3 # 4); Rerender; Press (1 # 4)] mount = mount.
Proof.
  exact (proj1 (unsettled_instance_unchanged
                  [Rerender; Press (3 # 4); Rerender; Press (1 # 4)]
                  eq_refl)).
Defined.

Lemma step_after_settlement (i : Instance) (ev : Event) :
  lastDeps i = Some [] -> pending i = 0%nat ->
  lastDeps (step i ev) = Some [] /\ pending (step i ev) = 0%nat /\
  posts (view (step i ev)) = posts (view i).
Proof.
  intros Hd Hp. destruct ev as [| net | random]; cbn [step].
  - rewrite renderPass_after_commit by exact Hd. auto.
  - rewrite Hp. auto.
  - destruct (Nat.ltb 0 (countTag "button" (render (view i)))); [| auto].
    rewrite renderPass_after_commit by exact Hd.
    cbn [withView view pending lastDeps]. rewrite click_posts. auto.
Qed.

(** X11. Only the first settlement counts: whatever events follow it,
    later settlements included, [posts] stays what the first settlement
    made it (the fetched array, or the empty list after a failure). *)
Theorem posts_fixed_by_first_settlement
    (net : FetchResult) (evs : list Event) :
  posts (view (steps evs (step mount (Resolve net)))) =
  match net with
  | inr {| ok := true; json := inr data |} => data
  | _ => []
  end.
Proof.
  assert (Hgen : forall i, lastDeps i = Some [] -> pending i = 0%nat ->
                           posts (view (steps evs i)) = posts (view i)).
  { induction evs as [| ev evs IH]; intros i Hd Hp; [reflexivity |].
    cbn [steps fold_left].
    destruct (step_after_settlement i ev Hd Hp) as (Hd' & Hp' & Hposts).
    unfold steps in IH. rewrite (IH _ Hd' Hp'). exact Hposts. }
  rewrite Hgen by reflexivity.
  destruct (fetch_result_cases net) as [[e ->] | [[js ->] | [[e ->] | [d ->]]]];
    reflexivity.
Qed.
